(** * Block children (packages/blocks/src/api/children.js)

    A shallow embedding of the rich-text "children" API of the blocks
    package: [concat], [fromDOM], [toText] and [matcher], together with the
    properties the design document states about them.

    The value functions are embedded twice where that matters:
    - [Children] is the functional reading of the source: an array is a
      [list], a block child is either a string or a non-string value;
    - [Store] replays [concat] over an explicit object store, with arrays
      held by reference, so that aliasing and in-place updates are visible. *)

From stdpp Require Import gmap strings list fin_maps.

(** ** Values *)

(** A block child as [concat] sees it: [typeof child === 'string'] or not.
    [N] is whatever a non-string child is (an element object in the pure
    reading, a reference in the store reading). *)
Inductive child (N : Type) : Type :=
  | Str (s : string)
  | Node (n : N).
Arguments Str {N} s.
Arguments Node {N} n.

(** An element of the block tree: [{ type, props: { ...attributes, children } }]. *)
#[warnings="-register-all"] Inductive WPElement : Type :=
  | Element (type : string) (attributes : list (string * string))
            (children : list (child WPElement)).

Abbreviation WPBlockChild := (child WPElement).
Abbreviation WPBlockChildren := (list (child WPElement)).

(** One actual argument of the variadic [concat]: a bare child or an array
    of children. *)
Inductive blockNode (N : Type) : Type :=
  | Single (c : child N)
  | Many (cs : list (child N)).
Arguments Single {N} c.
Arguments Many {N} cs.

(** A collection of DOM nodes as [fromDOM] is documented to take it, an
    [Iterable.<Node>].  It is either array-like (an Array, a NodeList: it
    has a [length] and its items are read by index) or an iterable without
    these (a Set, an iterator), on which [.length] and [[ i ]] are
    [undefined].  [items] are the nodes the collection holds, in iteration
    order. *)
Inductive Iterable (A : Type) : Type :=
  | ArrayLike (items : list A)
  | Unindexed (items : list A).
Arguments ArrayLike {A} items.
Arguments Unindexed {A} items.

(** The outcome of evaluating a JavaScript expression that may throw. *)
Inductive completion (A : Type) : Type :=
  | Return (a : A)
  | Throw (error : string).
Arguments Return {A} a.
Arguments Throw {A} error.

Definition bind {A B} (m : completion A) (k : A → completion B) : completion B :=
  match m with
  | Return a => k a
  | Throw e => Throw e
  end.

(** [try { body } catch ( error ) { handler }] *)
Definition try_catch {A} (body : completion A) (handler : string → completion A)
  : completion A :=
  match body with
  | Return a => Return a
  | Throw e => handler e
  end.

(** [Array.prototype.join] on an array of strings. *)
Fixpoint join (separator : string) (parts : list string) : string :=
  match parts with
  | [] => ""
  | [s] => s
  | s :: rest => s +:+ separator +:+ join separator rest
  end.

(** ** The functional reading of children.js *)

Module Children.

Section Concat.
Context {N : Type}.

(** lodash [castArray]: an array is returned as it is, anything else is
    wrapped in a one-element array. *)
Definition castArray (value : blockNode N) : list (child N) :=
  match value with
  | Many cs => cs
  | Single c => [c]
  end.

(** [typeof x === 'string'], where [None] is [undefined]. *)
Definition typeof_string (x : option (child N)) : bool :=
  match x with
  | Some (Str _) => true
  | _ => false
  end.

(** The body of the inner loop of [concat], for one [child].  The index
    [length result - 1] is out of range exactly when [result] is empty,
    where the lookup is [undefined]. *)
Definition concat_child (result : list (child N)) (c : child N) : list (child N) :=
  match c, result !! pred (length result) with
  | Str s, Some (Str prev) =>
      <[pred (length result) := Str (prev +:+ s)]> result
  | _, _ => result ++ [c]
  end.

(** The inner loop: [for ( j = 0; j < blockNode.length; j++ )]. *)
Definition concat_blockNode (result : list (child N)) (value : blockNode N)
  : list (child N) :=
  foldl concat_child result (castArray value).

(** [concat( ...blockNodes )] *)
Definition concat (blockNodes : list (blockNode N)) : list (child N) :=
  foldl concat_blockNode [] blockNodes.
End Concat.

(** [getSerializeCapableElement( children )] hands the value back unchanged. *)
Definition getSerializeCapableElement (children : WPBlockChildren) : WPBlockChildren :=
  children.

Section FromDOM.
(** DOM nodes are external to this file. *)
Context {ExternalNode : Type}.

(** [node.fromDOM] of ./node, which throws on a node it cannot convert. *)
Variable node_fromDOM : ExternalNode → completion WPBlockChild.

(** One turn of the loop of [fromDOM]:
    [try { result.push( node.fromDOM( domNodes[ i ] ) ) } catch ( error ) {}] *)
Definition fromDOM_node (result : WPBlockChildren) (domNode : ExternalNode)
  : completion WPBlockChildren :=
  try_catch
    (bind (node_fromDOM domNode) (λ c, Return (result ++ [c])))
    (λ _, Return result).

(** The loop [for ( i = 0; i < domNodes.length; i++ )] over the items of an
    array-like collection. *)
Fixpoint fromDOM_loop (result : WPBlockChildren) (domNodes : list ExternalNode)
  : completion WPBlockChildren :=
  match domNodes with
  | [] => Return result
  | domNode :: rest =>
      bind (fromDOM_node result domNode) (λ result', fromDOM_loop result' rest)
  end.

(** [fromDOM( domNodes )].  The collection is read through [domNodes.length]
    and [domNodes[ i ]] only.  Where there is no [length], the first test
    [0 < undefined] is false, the loop body never runs, and the empty
    [result] is returned. *)
Definition fromDOM (domNodes : Iterable ExternalNode) : completion WPBlockChildren :=
  match domNodes with
  | ArrayLike items => fromDOM_loop [] items
  | Unindexed _ => Return []
  end.

(** [domNode.querySelector( selector )]: a node, [null] ([None]), or an
    exception of the DOM implementation. *)
Variable querySelector : ExternalNode → string → completion (option ExternalNode).

(** [match.childNodes], a NodeList: the list is its items. *)
Variable childNodes : ExternalNode → list ExternalNode.

(** Truthiness of the [selector] argument: [null] / [undefined] ([None])
    and the empty string are falsy. *)
Definition truthy (selector : option string) : bool :=
  match selector with
  | Some s => if decide (s = "") then false else true
  | None => false
  end.

(** [matcher( selector )( domNode )].  A DOM node is an object, hence
    truthy; [match] is falsy only when [querySelector] gave [null]. *)
Definition matcher (selector : option string) (domNode : ExternalNode)
  : completion WPBlockChildren :=
  bind
    (match selector with
     | Some s =>
         if truthy selector then querySelector domNode s
         else Return (Some domNode)
     | None => Return (Some domNode)
     end)
    (λ match_,
      match match_ with
      | Some m => fromDOM (ArrayLike (childNodes m))
      | None => Return []
      end).
End FromDOM.

Section Serialize.
(** [renderToString] and [getTextElements] of @wordpress/element. *)
Variable renderToString : WPBlockChildren → string.
Variable getTextElements : WPBlockChildren → list string.

(** [toHTML( children )] *)
Definition toHTML (children : WPBlockChildren) : string :=
  let element := getSerializeCapableElement children in
  renderToString element.

(** [toText( children )] *)
Definition toText (children : WPBlockChildren) : string :=
  let element := getSerializeCapableElement children in
  join "" (getTextElements element).
End Serialize.

End Children.

(** ** The design document's vocabulary *)

Module Design.

Section Sequences.
Context {N : Type}.

Definition is_text (c : child N) : bool :=
  match c with
  | Str _ => true
  | Node _ => false
  end.

(** Invariant I1: no two consecutive items are both text. *)
Fixpoint no_adjacent_text (items : list (child N)) : bool :=
  match items with
  | [] => true
  | c :: rest =>
      negb (is_text c && from_option is_text false (head rest))
      && no_adjacent_text rest
  end.

(** The number of items that are text and directly follow a text item. *)
Fixpoint adjacent_text_pairs (items : list (child N)) : nat :=
  match items with
  | [] => 0
  | c :: rest =>
      (if is_text c && from_option is_text false (head rest) then 1 else 0)
      + adjacent_text_pairs rest
  end.

(** Flattening of the inputs, in argument order and item order; a scalar
    argument counts as a one-element sequence. *)
Definition flatten (inputs : list (blockNode N)) : list (child N) :=
  inputs ≫= (λ input,
    match input with
    | Single c => [c]
    | Many cs => cs
    end).

(** Merge-coalescing of adjacent text: a text item directly followed by
    text is joined with it, everything else stays where it is. *)
Fixpoint coalesce (items : list (child N)) : list (child N) :=
  match items with
  | [] => []
  | Node n :: rest => Node n :: coalesce rest
  | Str s :: rest =>
      match coalesce rest with
      | Str t :: rest' => Str (s +:+ t) :: rest'
      | rest' => Str s :: rest'
      end
  end.

(** The non-text items of a sequence, in order. *)
Definition nodes (items : list (child N)) : list N :=
  items ≫= (λ c, match c with Str _ => [] | Node n => [n] end).

(** The top-level text of a sequence, in order. *)
Definition texts (items : list (child N)) : list string :=
  items ≫= (λ c, match c with Str s => [s] | Node _ => [] end).
End Sequences.

(** What a node contributes to a conversion: its item, or nothing when its
    conversion raises. *)
Definition converted {ExternalNode : Type}
    (convert : ExternalNode → completion WPBlockChild) (n : ExternalNode)
  : option WPBlockChild :=
  match convert n with
  | Return c => Some c
  | Throw _ => None
  end.

(** Modelled from the spec: the text-extraction collaborator
    ([getTextElements] of @wordpress/element, not among the sources), which
    yields every text value of the nested tree depth-first, children of
    elements included and attributes excluded. *)
Fixpoint element_text_runs (e : WPElement) : list string :=
  match e with
  | Element _ _ children =>
      flat_map (λ c, match c with
                     | Str s => [s]
                     | Node n => element_text_runs n
                     end) children
  end.

Definition extractTextRuns (children : WPBlockChildren) : list string :=
  flat_map (λ c, match c with
                 | Str s => [s]
                 | Node n => element_text_runs n
                 end) children.

End Design.

(** ** [concat] over an object store

    Arrays and element objects are held by reference in JavaScript; a string
    is a primitive value.  Here a value is a string or a reference, the store
    maps references to objects, and [concat] is replayed statement by
    statement, so that every write to an array is a write to the store. *)

Module Store.

Abbreviation loc := positive.
Abbreviation value := (child loc).

Inductive object : Type :=
  | Array (elements : list value)
  | Object (fields : list (string * value)).

Abbreviation store := (gmap loc object).

(** A new object, at a reference not in use. *)
Definition alloc (st : store) (o : object) : store * loc :=
  let l := fresh (dom st) in (<[l := o]> st, l).

(** lodash [castArray]: [Array.isArray( value ) ? value : [ value ]]. *)
Definition castArray (st : store) (v : value) : store * loc :=
  match v with
  | Node l =>
      match st !! l with
      | Some (Array _) => (st, l)
      | _ => alloc st (Array [v])
      end
  | Str _ => alloc st (Array [v])
  end.

(** The inner loop of [concat], from index [j] on.  Both arrays are read
    from the store at every turn, as the source does; [None] is a loop that
    has not finished within [fuel] tests of its condition, or a reference
    that is not an array. *)
Fixpoint concat_inner (fuel : nat) (st : store) (result blockNode : loc) (j : nat)
  : option store :=
  match fuel with
  | 0 => None
  | S fuel' =>
      match st !! blockNode with
      | Some (Array elements) =>
          if decide (j < length elements) then
            match elements !! j, st !! result with
            | Some c, Some (Array res) =>
                let st' :=
                  match c, res !! pred (length res) with
                  | Str s, Some (Str prev) =>
                      <[result := Array (<[pred (length res) := Str (prev +:+ s)]> res)]> st
                  | _, _ =>
                      <[result := Array (res ++ [c])]> st
                  end in
                concat_inner fuel' st' result blockNode (S j)
            | _, _ => None
            end
          else Some st
      | _ => None
      end
  end.

(** The outer loop, over the rest-parameter array [blockNodes], which is
    created by the call and shared with nobody. *)
Fixpoint concat_outer (fuel : nat) (st : store) (result : loc) (blockNodes : list value)
  : option store :=
  match blockNodes with
  | [] => Some st
  | v :: rest =>
      let '(st1, blockNode) := castArray st v in
      st2 ← concat_inner fuel st1 result blockNode 0;
      concat_outer fuel st2 result rest
  end.

(** [concat( ...blockNodes )]: [const result = []; ...; return result;] *)
Definition concat (fuel : nat) (st : store) (blockNodes : list value)
  : option (store * loc) :=
  let '(st0, result) := alloc st (Array []) in
  st' ← concat_outer fuel st0 result blockNodes;
  Some (st', result).

(** What an argument stands for in a given store: the elements of the array
    it refers to, or itself. *)
Definition read_blockNode (st : store) (v : value) : blockNode loc :=
  match v with
  | Node l =>
      match st !! l with
      | Some (Array elements) => Many elements
      | _ => Single v
      end
  | Str _ => Single v
  end.

(** Every reference passed as an argument refers to an object. *)
Definition allocated (st : store) (blockNodes : list value) : Prop :=
  ∀ l, Node l ∈ blockNodes → is_Some (st !! l).

(** The number of loop turns the longest argument takes. *)
Definition turns (st : store) (blockNodes : list value) : nat :=
  max_list_with (λ v, length (Children.castArray (read_blockNode st v))) blockNodes.

(** A store to run on: an array [[ "a", em ]] at reference 1 and the element
    object [em] it holds at reference 2. *)
Definition example_store : store :=
  <[1%positive := Array [Str "a"; Node 2%positive]]>
    (<[2%positive := Object [("type", Str "em")]]> ∅).

End Store.

(** ** A document tree to run the DOM-facing functions on *)

Module Dom.

#[warnings="-register-all"] Inductive DomNode : Type :=
  | TextNode (nodeValue : string)
  | CommentNode (data : string)
  | ElementNode (nodeName : string) (attributes : list (string * string))
                (childNodes : list DomNode).

(** [node.childNodes] *)
Definition childNodes (n : DomNode) : list DomNode :=
  match n with
  | ElementNode _ _ kids => kids
  | _ => []
  end.

(** Modelled from the spec: the single-node converter ([node.fromDOM] of
    ./node, not among the sources).  A text node converts to its text, an
    element to an inline node over its converted children, and any other
    kind of node is unsupported and raises. *)
Fixpoint convertOne (n : DomNode) : completion WPBlockChild :=
  match n with
  | TextNode s => Return (Str s)
  | CommentNode _ => Throw "TypeError"
  | ElementNode name attrs kids =>
      bind (Children.fromDOM convertOne (ArrayLike kids))
           (λ children, Return (Node (Element name attrs children)))
  end.

(** Modelled from the spec: the tree query ([querySelector] of the DOM, not
    among the sources), here for selectors that are an element name: the
    first descendant, in document order, with that name. *)
Fixpoint queryFirstDescendant (root : DomNode) (selector : string) : option DomNode :=
  match root with
  | ElementNode _ _ kids =>
      (fix first (kids : list DomNode) : option DomNode :=
         match kids with
         | [] => None
         | kid :: rest =>
             let found :=
               match kid with
               | ElementNode name _ _ =>
                   if decide (name = selector) then Some kid
                   else queryFirstDescendant kid selector
               | _ => None
               end in
             match found with
             | Some m => Some m
             | None => first rest
             end
         end) kids
  | _ => None
  end.

Definition querySelector (root : DomNode) (selector : string)
  : completion (option DomNode) :=
  Return (queryFirstDescendant root selector).

End Dom.

(** ** Strings *)

Lemma string_app_assoc (s t u : string) : (s +:+ t) +:+ u = s +:+ (t +:+ u).
Proof.
  induction s as [|a s IH]; [done|].
  unfold String.app in *. simpl. by rewrite IH.
Qed.

Lemma string_app_nil_r (s : string) : s +:+ "" = s.
Proof.
  induction s as [|a s IH]; [done|].
  unfold String.app in *. simpl. by rewrite IH.
Qed.

Lemma join_empty_separator (parts : list string) :
  join "" parts = foldr String.app "" parts.
Proof.
  induction parts as [|s [|t rest] IH]; [done| |].
  - simpl. by rewrite string_app_nil_r.
  - change (s +:+ "" +:+ join "" (t :: rest) = s +:+ foldr String.app "" (t :: rest)).
    by rewrite IH.
Qed.

(** ** The accumulator step of [concat] *)

Section ConcatChild.
Context {N : Type}.
Implicit Types (result items : list (child N)) (c : child N).

Import Children Design.

Lemma concat_child_nil c : concat_child [] c = [c].
Proof. by destruct c. Qed.

Lemma concat_child_node result n :
  concat_child result (Node n) = result ++ [Node n].
Proof. done. Qed.

Lemma concat_child_snoc_text result prev s :
  concat_child (result ++ [Str prev]) (Str s) = result ++ [Str (prev +:+ s)].
Proof.
  unfold concat_child. rewrite <-last_lookup, last_snoc.
  rewrite length_app, Nat.add_1_r. simpl.
  replace (length result) with (length result + 0) by lia.
  by rewrite insert_app_r.
Qed.

Lemma concat_child_snoc_node result n c :
  concat_child (result ++ [Node n]) c = result ++ [Node n; c].
Proof.
  unfold concat_child. rewrite <-last_lookup, last_snoc.
  destruct c; by rewrite <-app_assoc.
Qed.

(** What the step does, by the shape of the accumulator's end. *)
Lemma concat_child_cases result c :
  (result = [] ∧ concat_child result c = [c])
  ∨ (∃ r n, result = r ++ [Node n] ∧ concat_child result c = r ++ [Node n; c])
  ∨ (∃ r prev n, result = r ++ [Str prev] ∧ c = Node n
                 ∧ concat_child result c = r ++ [Str prev; Node n])
  ∨ (∃ r prev s, result = r ++ [Str prev] ∧ c = Str s
                 ∧ concat_child result c = r ++ [Str (prev +:+ s)]).
Proof.
  destruct (last result) as [[prev|n]|] eqn:Hlast.
  - apply last_Some in Hlast as [r ->]. destruct c as [s|n].
    + do 3 right. exists r, prev, s. by rewrite concat_child_snoc_text.
    + do 2 right. left. exists r, prev, n.
      by rewrite concat_child_node, <-app_assoc.
  - apply last_Some in Hlast as [r ->]. right. left. exists r, n.
    by rewrite concat_child_snoc_node.
  - apply last_None in Hlast as ->. left. by rewrite concat_child_nil.
Qed.

Lemma concat_child_cons c0 result c :
  result ≠ [] → concat_child (c0 :: result) c = c0 :: concat_child result c.
Proof.
  intros Hne.
  destruct (concat_child_cases result c)
    as [[-> _]|[(r & n & -> & ->)|[(r & p & n & -> & -> & ->)|(r & p & s & -> & -> & ->)]]].
  - done.
  - by rewrite app_comm_cons, concat_child_snoc_node.
  - rewrite concat_child_node. simpl. by rewrite <-app_assoc.
  - by rewrite app_comm_cons, concat_child_snoc_text.
Qed.
End ConcatChild.

(** ** Coalescing, and how the loops of [concat] compute it *)

Section Coalesce.
Context {N : Type}.
Implicit Types (result items : list (child N)) (c : child N).
Implicit Types (blockNodes : list (blockNode N)).

Import Children Design.

Lemma coalesce_snoc items c :
  coalesce (items ++ [c]) = concat_child (coalesce items) c.
Proof.
  induction items as [|[s|n] items IH]; simpl.
  - by destruct c.
  - rewrite IH. destruct (coalesce items) as [|[t|m] [|c1 r]] eqn:Hco.
    + by destruct c.
    + destruct c as [u|m]; [|done].
      change (concat_child [Str t] (Str u)) with [Str (t +:+ u) : child N].
      change (concat_child [Str (s +:+ t)] (Str u))
        with [Str ((s +:+ t) +:+ u) : child N].
      by rewrite string_app_assoc.
    + rewrite (concat_child_cons (Str t)) by done.
      by rewrite (concat_child_cons (Str (s +:+ t))).
    + by destruct c.
    + rewrite (concat_child_cons (Str s)) by done.
      by rewrite (concat_child_cons (Node m)).
  - rewrite IH. destruct (coalesce items) as [|c1 r] eqn:Hco.
    + by destruct c.
    + by rewrite (concat_child_cons (Node n)).
Qed.

Lemma foldl_concat_child_coalesce items more :
  foldl concat_child (coalesce items) more = coalesce (items ++ more).
Proof.
  revert items. induction more as [|c more IH]; intros items; simpl.
  - by rewrite app_nil_r.
  - by rewrite <-coalesce_snoc, IH, <-app_assoc.
Qed.

Lemma flatten_cons b blockNodes :
  flatten (b :: blockNodes) = castArray b ++ flatten blockNodes.
Proof. by destruct b. Qed.

Lemma foldl_concat_blockNode_coalesce items blockNodes :
  foldl concat_blockNode (coalesce items) blockNodes
  = coalesce (items ++ flatten blockNodes).
Proof.
  revert items. induction blockNodes as [|b blockNodes IH]; intros items.
  - simpl. by rewrite app_nil_r.
  - rewrite flatten_cons. cbn [foldl]. unfold concat_blockNode at 2.
    by rewrite foldl_concat_child_coalesce, IH, <-app_assoc.
Qed.

Lemma concat_coalesce blockNodes :
  concat blockNodes = coalesce (flatten blockNodes).
Proof. apply (foldl_concat_blockNode_coalesce []). Qed.

Lemma flatten_app blockNodes1 blockNodes2 :
  flatten (blockNodes1 ++ blockNodes2) = flatten blockNodes1 ++ flatten blockNodes2.
Proof. apply bind_app. Qed.

Lemma coalesce_cons_text s items :
  coalesce (Str s :: items)
  = match coalesce items with
    | Str t :: rest' => Str (s +:+ t) :: rest'
    | rest' => Str s :: rest'
    end.
Proof. done. Qed.

(** [coalesce] establishes I1 ... *)
Lemma coalesce_no_adjacent_text items :
  no_adjacent_text (coalesce items) = true.
Proof.
  induction items as [|[s|n] items IH]; simpl; [done| |done].
  by destruct (coalesce items) as [|[t|m] r].
Qed.

(** ... and leaves alone what already satisfies it. *)
Lemma coalesce_fixed items :
  no_adjacent_text items = true → coalesce items = items.
Proof.
  induction items as [|[s|n] items IH]; simpl; [done| |].
  - intros [Hhd Htl]%andb_true_iff. rewrite (IH Htl).
    by destruct items as [|[t|m] r].
  - intros H. by rewrite IH.
Qed.

Lemma coalesce_idempotent items : coalesce (coalesce items) = coalesce items.
Proof. apply coalesce_fixed, coalesce_no_adjacent_text. Qed.

Lemma coalesce_app_r items more :
  coalesce (items ++ coalesce more) = coalesce (items ++ more).
Proof.
  induction items as [|[s|n] items IH]; simpl.
  - apply coalesce_idempotent.
  - by rewrite IH.
  - by rewrite IH.
Qed.

Lemma coalesce_app_l items more :
  coalesce (coalesce items ++ more) = coalesce (items ++ more).
Proof.
  by rewrite <-!foldl_concat_child_coalesce, coalesce_idempotent.
Qed.

(** A non-text item is a barrier: nothing is merged into it or across it. *)
Lemma coalesce_node_barrier items n more :
  coalesce (items ++ Node n :: more) = coalesce items ++ Node n :: coalesce more.
Proof.
  induction items as [|[s|m] items IH]; simpl; [done| |by rewrite IH].
  rewrite IH. by destruct (coalesce items) as [|[t|m] r].
Qed.

(** A run of text becomes one item holding the run's text. *)
Lemma coalesce_text_run s (run : list string) :
  coalesce (Str <$> s :: run) = [Str (foldr String.app "" (s :: run)) : child N].
Proof.
  revert s. induction run as [|t run IH]; intros s.
  - simpl. by rewrite string_app_nil_r.
  - rewrite fmap_cons, coalesce_cons_text. by rewrite IH.
Qed.

Lemma nodes_coalesce items : nodes (coalesce items) = nodes items.
Proof.
  induction items as [|[s|n] items IH]; [done| |].
  - rewrite coalesce_cons_text.
    change (nodes (Str s :: items)) with (nodes items). rewrite <-IH.
    by destruct (coalesce items) as [|[t|m] r].
  - change (n :: nodes (coalesce items) = n :: nodes items). by rewrite IH.
Qed.

Lemma texts_coalesce items :
  foldr String.app "" (texts (coalesce items)) = foldr String.app "" (texts items).
Proof.
  induction items as [|[s|n] items IH]; [done| |].
  - rewrite coalesce_cons_text.
    change (texts (Str s :: items)) with (s :: texts items).
    cbn [foldr]. rewrite <-IH.
    destruct (coalesce items) as [|[t|m] r]; [done| |done].
    change (texts (Str (s +:+ t) :: r)) with ((s +:+ t) :: texts r).
    change (texts (Str t :: r)) with (t :: texts r).
    cbn [foldr]. by rewrite string_app_assoc.
  - exact IH.
Qed.

(** I1 read by positions. *)
Lemma no_adjacent_text_lookup items i :
  no_adjacent_text items = true →
  typeof_string (items !! i) && typeof_string (items !! S i) = false.
Proof.
  revert i. induction items as [|c items IH]; intros i; [done|].
  simpl. intros [Hhd Htl]%andb_true_iff. destruct i as [|i].
  - simpl. destruct c as [s|n]; [|done]. by destruct items as [|[t|m] r].
  - by apply IH.
Qed.
End Coalesce.

(** ** [concat]: the stated properties *)

Section ConcatProperties.
Context {N : Type}.
Implicit Types (a b c : blockNode N) (blockNodes : list (blockNode N)).

Import Children Design.

(** C1 (invariant I1, property P2): whatever the arguments, adjacent text
    fragments are always coalesced into one: [concat] returns the flattened
    arguments with every run of neighbouring strings joined into a single
    string, so the sequence it returns has no two consecutive items that are
    both strings; at no index [i] are item [i] and item [i + 1] both of type
    string. *)
Theorem concat_no_adjacent_text blockNodes :
  concat blockNodes = coalesce (flatten blockNodes)
  ∧ no_adjacent_text (concat blockNodes) = true
  ∧ ∀ i, typeof_string (concat blockNodes !! i)
         && typeof_string (concat blockNodes !! S i) = false.
Proof.
assert (no_adjacent_text (concat blockNodes) = true) as H.
{ rewrite concat_coalesce. apply coalesce_no_adjacent_text. }
split_and!; [apply concat_coalesce|done|].
intros i. by apply no_adjacent_text_lookup.
Qed.

(** C2 (property P3): the output of [concat] is the flattening of its
    inputs, in argument order and item order, with adjacent text coalesced
    and nothing else changed: the non-text items come out as they went in
    and in the same order, the text comes out in the same order, a non-text
    item is a barrier that nothing is merged into or across, and an empty
    sequence among the inputs contributes nothing. *)
Theorem concat_flatten_coalesce blockNodes :
  concat blockNodes = coalesce (flatten blockNodes)
  ∧ nodes (concat blockNodes) = nodes (flatten blockNodes)
  ∧ foldr String.app "" (texts (concat blockNodes))
    = foldr String.app "" (texts (flatten blockNodes))
  ∧ (∀ before n after,
       flatten blockNodes = before ++ Node n :: after →
       concat blockNodes = coalesce before ++ Node n :: coalesce after)
  ∧ (∀ before after,
       blockNodes = before ++ Many [] :: after →
       concat blockNodes = concat (before ++ after)).
Proof.
  rewrite concat_coalesce. split_and!.
  - done.
  - apply nodes_coalesce.
  - apply texts_coalesce.
  - intros before n after ->. apply coalesce_node_barrier.
  - intros before after ->.
    by rewrite concat_coalesce, !flatten_app, flatten_cons.
Qed.

(** C3 (property P1): [concat] is idempotent as a normalizer;
    [concat( concat( a, b ) )] equals [concat( a, b )]. *)
Theorem concat_idempotent a b :
  concat [Many (concat [a; b])] = concat [a; b].
Proof.
  rewrite (concat_coalesce [Many _]), flatten_cons. simpl.
  rewrite app_nil_r, concat_coalesce. apply coalesce_idempotent.
Qed.

(** C9: [concat] is associative in its variadic form;
    [concat( concat( a, b ), c )] and [concat( a, concat( b, c ) )] both
    equal [concat( a, b, c )]. *)
Theorem concat_associative a b c :
  concat [Many (concat [a; b]); c] = concat [a; b; c]
  ∧ concat [a; Many (concat [b; c])] = concat [a; b; c].
Proof.
  rewrite !concat_coalesce, !flatten_cons. simpl. rewrite !app_nil_r. split.
  - by rewrite coalesce_app_l, <-app_assoc.
  - by rewrite coalesce_app_r.
Qed.
End ConcatProperties.

(** Scenarios A and B of the design document. *)
Example concat_scenario_A :
  Children.concat [Single (Str "a" : child nat); Single (Str "b")] = [Str "ab"].
Proof. reflexivity. Qed.

Example concat_scenario_B :
  Children.concat [Many [Str "a"; Node 7]; Single (Str "b")]
  = [Str "a"; Node 7; Str "b"].
Proof. reflexivity. Qed.

Lemma concat_flatten_coalesce_witness :
  Children.concat [Many [Str "a"; Str "b"; Node 7]; Many []; Single (Str "c")]
  = [Str "ab"; Node 7; Str "c"]
  ∧ Children.concat [Many [Str "a"; Str "b"; Node 7]; Many []; Single (Str "c")]
    = Children.concat [Many [Str "a"; Str "b"; Node 7]; Single (Str "c")].
Proof.
  pose proof (concat_flatten_coalesce
    [Many [Str "a"; Str "b"; Node 7]; Many []; Single (Str "c")])
    as (_ & _ & _ & Hbarrier & Hempty).
  split.
  - apply (Hbarrier [Str "a"; Str "b"] 7 [Str "c"]). reflexivity.
  - apply (Hempty [Many [Str "a"; Str "b"; Node 7]] [Single (Str "c")]). reflexivity.
Defined.

(** ** [concat] over the store: what it writes and what it leaves alone *)

Section StoreConcat.
Import Store.
Implicit Types (st : store) (result blockNode : loc) (v : value).
Implicit Types (res elements : list value) (blockNodes : list value).

(** The two branches of the loop body write what [concat_child] computes. *)
Lemma store_body_concat_child st result res (c : value) :
  match c, res !! pred (length res) with
  | Str s, Some (Str prev) =>
      <[result := Array (<[pred (length res) := Str (prev +:+ s)]> res)]> st
  | _, _ => <[result := Array (res ++ [c])]> st
  end = <[result := Array (Children.concat_child res c)]> st.
Proof.
  unfold Children.concat_child.
  by destruct c as [s|n], (res !! pred (length res)) as [[prev|m]|].
Qed.

(** The inner loop ends, having changed the [result] array only. *)
Lemma concat_inner_spec fuel st result blockNode elements res j :
  result ≠ blockNode →
  st !! blockNode = Some (Array elements) →
  st !! result = Some (Array res) →
  length elements - j < fuel →
  concat_inner fuel st result blockNode j
  = Some (<[result := Array (foldl Children.concat_child res (drop j elements))]> st).
Proof.
  revert st res j. induction fuel as [|fuel IH]; intros st res j Hne Hbn Hres Hfuel.
  { lia. }
  cbn [concat_inner]. rewrite Hbn. case_decide as Hj.
  - destruct (lookup_lt_is_Some_2 elements j Hj) as [c Hc].
    rewrite Hc, Hres, store_body_concat_child.
    rewrite (IH _ (Children.concat_child res c)).
    + by rewrite insert_insert_eq, (drop_S _ _ _ Hc).
    + done.
    + by rewrite lookup_insert_ne.
    + by rewrite lookup_insert_eq.
    + lia.
  - rewrite drop_ge by lia. simpl. by rewrite insert_id.
Qed.

Lemma turns_cons st v blockNodes :
  turns st (v :: blockNodes)
  = length (Children.castArray (read_blockNode st v)) `max` turns st blockNodes.
Proof. done. Qed.

Lemma allocated_cons st v blockNodes :
  allocated st (v :: blockNodes) →
  (∀ l, v = Node l → is_Some (st !! l)) ∧ allocated st blockNodes.
Proof.
  intros Hall. split.
  - intros l ->. apply Hall. left.
  - intros l Hl. apply Hall. by right.
Qed.

(** [castArray] either hands back the array it was given, leaving the
    store as it is, or makes a new one-element array at an unused
    reference. *)
Lemma castArray_cases st v st1 blockNode :
  castArray st v = (st1, blockNode) →
  (∃ elements, v = Node blockNode ∧ st1 = st
               ∧ st !! blockNode = Some (Array elements)
               ∧ read_blockNode st v = Many elements)
  ∨ (st !! blockNode = None ∧ st1 = <[blockNode := Array [v]]> st
     ∧ read_blockNode st v = Single v).
Proof.
  assert (∀ o, alloc st o = (st1, blockNode) →
            st !! blockNode = None ∧ st1 = <[blockNode := o]> st) as Halloc.
  { unfold alloc. intros o [= <- <-]. split; [|done].
    apply not_elem_of_dom, is_fresh. }
  unfold castArray, read_blockNode.
  destruct v as [s|l]; [intros [? ?]%Halloc; by right|].
  destruct (st !! l) as [[elements|fields]|] eqn:Hl.
  - intros [= <- <-]. left. by exists elements.
  - intros [? ?]%Halloc; by right.
  - intros [? ?]%Halloc; by right.
Qed.

(** The outer loop: [result] receives what the functional reading
    computes, and no object of the store [st0] the call started from is
    written to. *)
Lemma concat_outer_spec fuel st0 result blockNodes : ∀ st res,
  st0 !! result = None →
  st !! result = Some (Array res) →
  (∀ l, is_Some (st0 !! l) → st !! l = st0 !! l) →
  allocated st0 blockNodes →
  turns st0 blockNodes < fuel →
  ∃ st',
    concat_outer fuel st result blockNodes = Some st'
    ∧ st' !! result
      = Some (Array (foldl Children.concat_blockNode res
                       (read_blockNode st0 <$> blockNodes)))
    ∧ (∀ l, is_Some (st0 !! l) → st' !! l = st0 !! l).
Proof.
  induction blockNodes as [|v blockNodes IH];
    intros st res Hnew Hres Hframe Hall Hfuel.
  { exists st. by split_and!. }
  apply allocated_cons in Hall as [Hv Hall]. rewrite turns_cons in Hfuel.
  cbn [concat_outer].
  (* the argument reads the same in [st] as it did in [st0] *)
  assert (read_blockNode st v = read_blockNode st0 v) as Hread.
  { destruct v as [s|l]; [done|]. simpl. by rewrite (Hframe l (Hv l eq_refl)). }
  destruct (castArray st v) as [st1 blockNode] eqn:Hcast.
  apply castArray_cases in Hcast
    as [(elements & -> & -> & Hbn & Hmany)|(Hfresh & -> & Hsingle)].
  - (* an array argument is read where it is *)
    rewrite Hread in Hmany. rewrite Hmany in Hfuel. simpl in Hfuel.
    assert (result ≠ blockNode) as Hne.
    { intros <-. destruct (Hv result eq_refl) as [o Ho]. congruence. }
    rewrite (concat_inner_spec _ _ _ _ elements res) by (done || lia).
    rewrite drop_0. cbn [mbind option_bind].
    edestruct (IH (<[result := Array (foldl Children.concat_child res elements)]> st))
      as (st' & Hrun & Hres' & Hframe'); [done|apply lookup_insert_eq| |done|lia|].
    { intros l Hl. rewrite lookup_insert_ne; [by apply Hframe|].
      intros <-. destruct Hl as [o Ho]. congruence. }
    exists st'. split_and!; [done| |done].
    rewrite Hres'. cbn [fmap list_fmap foldl]. by rewrite Hmany.
  - (* any other argument is wrapped in a new array *)
    rewrite Hread in Hsingle. rewrite Hsingle in Hfuel. simpl in Hfuel.
    assert (result ≠ blockNode) as Hne by congruence.
    rewrite (concat_inner_spec _ _ _ _ [v] res); [|done| | |simpl; lia].
    2: { apply lookup_insert_eq. }
    2: { by rewrite lookup_insert_ne. }
    rewrite drop_0. cbn [mbind option_bind].
    edestruct (IH (<[result := Array (foldl Children.concat_child res [v])]>
                     (<[blockNode := Array [v]]> st)))
      as (st' & Hrun & Hres' & Hframe'); [done|apply lookup_insert_eq| |done|lia|].
    { intros l Hl. rewrite <-(Hframe l Hl).
      rewrite !lookup_insert_ne; [done|..].
      - intros <-. rewrite Hframe in Hfresh by done. destruct Hl as [o Ho]. congruence.
      - intros <-. destruct Hl as [o Ho]. congruence. }
    exists st'. split_and!; [done| |done].
    rewrite Hres'. cbn [fmap list_fmap foldl]. by rewrite Hsingle.
Qed.

(** The call: a new array at a reference unused before, holding what the
    functional reading computes; the store before the call is part of the
    store after it. *)
Lemma concat_spec fuel st blockNodes :
  allocated st blockNodes →
  turns st blockNodes < fuel →
  ∃ st' result,
    Store.concat fuel st blockNodes = Some (st', result)
    ∧ st !! result = None
    ∧ st ⊆ st'
    ∧ st' !! result
      = Some (Array (Children.concat (read_blockNode st <$> blockNodes))).
Proof.
  intros Hall Hfuel. unfold Store.concat, alloc.
  set (result := fresh (dom st)).
  assert (st !! result = None) as Hnew by apply not_elem_of_dom, is_fresh.
  destruct (concat_outer_spec fuel st result blockNodes
              (<[result := Array []]> st) [])
    as (st' & Hrun & Hres & Hframe); [done|apply lookup_insert_eq| |done|done|].
  { intros l [o Hl]. rewrite lookup_insert_ne; [done|congruence]. }
  exists st', result. rewrite Hrun. split_and!; [done|done| |done].
  apply map_subseteq_spec. intros l o Hl. rewrite Hframe; eauto.
Qed.
End StoreConcat.

(** C8: [concat] writes to no object that existed before the call.  Given
  arguments whose references are live, and loops given enough turns, the
  call returns; the array it returns is at a reference that was unused
  before; every object of the store before the call is in the store after
  it, unchanged, so each argument reads after the call as it did before;
  and the new array holds what the functional reading computes. *)
Theorem concat_does_not_mutate (st : Store.store) (blockNodes : list Store.value)
  (fuel : nat) :
Store.allocated st blockNodes →
Store.turns st blockNodes < fuel →
∃ st' result,
  Store.concat fuel st blockNodes = Some (st', result)
  ∧ st !! result = None
  ∧ (∀ l o, st !! l = Some o → st' !! l = Some o)
  ∧ (∀ v, v ∈ blockNodes → Store.read_blockNode st' v = Store.read_blockNode st v)
  ∧ st' !! result
    = Some (Store.Array (Children.concat (Store.read_blockNode st <$> blockNodes))).
Proof.
intros Hall Hfuel.
destruct (concat_spec fuel st blockNodes Hall Hfuel)
  as (st' & result & Hrun & Hnew & Hsub & Hres).
exists st', result. split_and!; [done|done| | |done].
- intros l o Hl. by eapply lookup_weaken.
- intros [s|l] Hv; [done|]. destruct (Hall l Hv) as [o Hl].
  simpl. by rewrite Hl, (lookup_weaken _ _ _ _ Hl Hsub).
Qed.

(** C10: called with no argument at all, [concat] returns the empty
  sequence: [[]] in the functional reading, and over the store a new empty
  array, with nothing else changed, whatever the number of turns allowed. *)
Theorem concat_no_arguments :
(∀ N : Type, @Children.concat N [] = [])
∧ ∀ fuel (st : Store.store),
    Store.concat fuel st []
    = Some (<[fresh (dom st) := Store.Array []]> st, fresh (dom st)).
Proof. done. Qed.

(** The same array passed twice, with a string in between: the call makes
  a new array and the argument still reads [[ "a", em ]] afterwards. *)
Lemma concat_does_not_mutate_witness :
∃ st' result,
  Store.concat 3 Store.example_store [Node 1%positive; Str "b"; Node 1%positive]
  = Some (st', result)
  ∧ Store.example_store !! result = None
  ∧ st' !! 1%positive = Some (Store.Array [Str "a"; Node 2%positive])
  ∧ st' !! result
    = Some (Store.Array [Str "a"; Node 2%positive; Str "ba"; Node 2%positive]).
Proof.
destruct (concat_does_not_mutate Store.example_store
            [Node 1%positive; Str "b"; Node 1%positive] 3)
  as (st' & result & Hrun & Hnew & Hframe & _ & Hres).
- intros l Hl. exists (Store.Array [Str "a"; Node 2%positive]).
  apply elem_of_cons in Hl as [[= ->]|Hl]; [reflexivity|].
  apply elem_of_cons in Hl as [[=]|Hl].
  apply elem_of_cons in Hl as [[= ->]|Hl]; [reflexivity|].
  by apply elem_of_nil in Hl.
- vm_compute. lia.
- exists st', result. split_and!; [done|done| |done].
  apply Hframe. reflexivity.
Defined.

(** ** [fromDOM] *)

Section FromDOMProperties.
Context {ExternalNode : Type}.
Variable node_fromDOM : ExternalNode → completion WPBlockChild.
Implicit Types (domNodes : list ExternalNode) (result : WPBlockChildren).

Import Children Design.

Lemma fromDOM_node_converted result domNode :
  fromDOM_node node_fromDOM result domNode
  = Return (result ++ option_list (converted node_fromDOM domNode)).
Proof.
  unfold fromDOM_node, converted.
  destruct (node_fromDOM domNode) as [c|e]; simpl; [done|].
  by rewrite app_nil_r.
Qed.

Lemma fromDOM_loop_omap result domNodes :
  fromDOM_loop node_fromDOM result domNodes
  = Return (result ++ omap (converted node_fromDOM) domNodes).
Proof.
  revert result. induction domNodes as [|domNode domNodes IH]; intros result.
  - simpl. by rewrite app_nil_r.
  - cbn [fromDOM_loop]. rewrite fromDOM_node_converted. cbn [bind].
    rewrite IH, <-app_assoc. cbn [omap list_omap].
    by destruct (converted node_fromDOM domNode).
Qed.

Lemma fromDOM_omap domNodes :
  fromDOM node_fromDOM (ArrayLike domNodes)
  = Return (omap (converted node_fromDOM) domNodes).
Proof. apply (fromDOM_loop_omap []). Qed.

Lemma fromDOM_unindexed domNodes :
  fromDOM node_fromDOM (Unindexed domNodes) = Return [].
Proof. done. Qed.

Lemma converted_Return domNode c :
  node_fromDOM domNode = Return c → converted node_fromDOM domNode = Some c.
Proof. unfold converted. by intros ->. Qed.

Lemma omap_converted_Throw domNodes :
  Forall (λ n, ∃ e, node_fromDOM n = Throw e) domNodes →
  omap (converted node_fromDOM) domNodes = [].
Proof.
  induction 1 as [|n domNodes [e He] _ IH]; [done|].
  cbn [omap list_omap]. unfold converted at 1. by rewrite He.
Qed.
End FromDOMProperties.

(** C4 (invariant I2, property P4): [fromDOM] never raises, however many
    of the single-node conversions do.  Given an array-like collection it
    returns the items of the nodes whose conversion succeeds, in input
    order, and nothing for the others.  Given an iterable without a
    [length], which its documentation admits as well, it returns the empty
    sequence whatever the nodes are: there a node whose conversion would
    succeed contributes nothing. *)
Theorem fromDOM_total {ExternalNode : Type}
  (node_fromDOM : ExternalNode → completion WPBlockChild)
  (domNodes : list ExternalNode) :
Children.fromDOM node_fromDOM (ArrayLike domNodes)
= Return (omap (Design.converted node_fromDOM) domNodes)
∧ Children.fromDOM node_fromDOM (Unindexed domNodes) = Return [].
Proof. split; [apply fromDOM_omap|apply fromDOM_unindexed]. Qed.

(** A Set of two text nodes: both convert, and neither is in the result. *)
Example fromDOM_set_of_text_nodes :
Dom.convertOne (Dom.TextNode "x") = Return (Str "x")
∧ Dom.convertOne (Dom.TextNode "y") = Return (Str "y")
∧ Children.fromDOM Dom.convertOne (Unindexed [Dom.TextNode "x"; Dom.TextNode "y"])
  = Return []
∧ Children.fromDOM Dom.convertOne (ArrayLike [Dom.TextNode "x"; Dom.TextNode "y"])
  = Return [Str "x"; Str "y"].
Proof. by split_and!. Qed.

(** C5: [fromDOM] does no coalescing of its own.  In an array-like
    collection, two source nodes that both convert to text, next to each
    other or with only unconvertible nodes between them, give two separate
    neighbouring text items; the output then breaks I1, which holds again
    once it is passed through [concat].  In an iterable without a [length]
    the same nodes give the empty sequence, with neither text item in it. *)
Theorem fromDOM_no_coalescing {ExternalNode : Type}
  (node_fromDOM : ExternalNode → completion WPBlockChild)
  (before skipped after : list ExternalNode) (n1 n2 : ExternalNode) (s t : string) :
node_fromDOM n1 = Return (Str s) →
node_fromDOM n2 = Return (Str t) →
Forall (λ n, ∃ e, node_fromDOM n = Throw e) skipped →
(∃ r1 r2,
  Children.fromDOM node_fromDOM (ArrayLike before) = Return r1
  ∧ Children.fromDOM node_fromDOM (ArrayLike after) = Return r2
  ∧ Children.fromDOM node_fromDOM
      (ArrayLike (before ++ n1 :: skipped ++ n2 :: after))
    = Return (r1 ++ Str s :: Str t :: r2)
  ∧ Design.no_adjacent_text (r1 ++ Str s :: Str t :: r2) = false
  ∧ Design.no_adjacent_text
      (Children.concat [Many (r1 ++ Str s :: Str t :: r2)]) = true)
∧ Children.fromDOM node_fromDOM
    (Unindexed (before ++ n1 :: skipped ++ n2 :: after))
  = Return [].
Proof.
intros H1 H2 Hskipped. split; [|apply fromDOM_unindexed].
exists (omap (Design.converted node_fromDOM) before),
       (omap (Design.converted node_fromDOM) after).
rewrite !fromDOM_omap. split_and!; [done|done| | |].
- rewrite omap_app. cbn [omap list_omap].
  rewrite (converted_Return _ _ _ H1), omap_app, (omap_converted_Throw _ _ Hskipped).
  cbn [omap list_omap app]. by rewrite (converted_Return _ _ _ H2).
- generalize (omap (Design.converted node_fromDOM) before) as r1.
  induction r1 as [|c r1 IH]; [done|].
  simpl. rewrite IH. apply andb_false_r.
- rewrite concat_coalesce. apply coalesce_no_adjacent_text.
Qed.

(** Scenario C of the design document, for an array of nodes and for a Set
    of the same nodes. *)
Lemma fromDOM_no_coalescing_witness :
Children.fromDOM Dom.convertOne
  (ArrayLike [Dom.TextNode "x"; Dom.CommentNode "note"; Dom.TextNode "y"])
= Return [Str "x"; Str "y"]
∧ Children.fromDOM Dom.convertOne
    (Unindexed [Dom.TextNode "x"; Dom.CommentNode "note"; Dom.TextNode "y"])
  = Return [].
Proof.
destruct (fromDOM_no_coalescing Dom.convertOne
            [] [Dom.CommentNode "note"] [] (Dom.TextNode "x") (Dom.TextNode "y")
            "x" "y")
  as [(r1 & r2 & Hbefore & Hafter & Hrun & _) Hset].
- reflexivity.
- reflexivity.
- constructor; [by exists "TypeError"|constructor].
- injection Hbefore as <-. injection Hafter as <-. split; [exact Hrun|exact Hset].
Defined.

(** ** [matcher] *)

(** C6: the function [matcher( selector )] returns, applied to a root node:
  without a selector ([null] or the empty string) the match is the root
  itself and the result is [fromDOM] of the root's child nodes; with a
  selector the match is what the root's [querySelector] finds, and the
  result is [fromDOM] of the match's child nodes, or the empty sequence
  when nothing matches. *)
Theorem matcher_spec {ExternalNode : Type}
  (node_fromDOM : ExternalNode → completion WPBlockChild)
  (querySelector : ExternalNode → string → completion (option ExternalNode))
  (childNodes : ExternalNode → list ExternalNode)
  (selector : option string) (root : ExternalNode) :
(selector = None ∨ selector = Some "" →
   Children.matcher node_fromDOM querySelector childNodes selector root
   = Children.fromDOM node_fromDOM (ArrayLike (childNodes root)))
∧ (∀ s, selector = Some s → s ≠ "" →
     (∀ m, querySelector root s = Return (Some m) →
        Children.matcher node_fromDOM querySelector childNodes selector root
        = Children.fromDOM node_fromDOM (ArrayLike (childNodes m)))
     ∧ (querySelector root s = Return None →
        Children.matcher node_fromDOM querySelector childNodes selector root
        = Return [])).
Proof.
unfold Children.matcher. split.
- by intros [->| ->].
- intros s -> Hs. unfold Children.truthy. rewrite decide_False by done.
  split; [intros m|]; by intros ->.
Qed.

Lemma matcher_spec_witness :
let root :=
  Dom.ElementNode "div" []
    [Dom.TextNode "intro";
     Dom.ElementNode "p" [] [Dom.TextNode "Hi "; Dom.CommentNode "x"; Dom.TextNode "there"]] in
Children.matcher Dom.convertOne Dom.querySelector Dom.childNodes (Some "p") root
= Return [Str "Hi "; Str "there"]
∧ Children.matcher Dom.convertOne Dom.querySelector Dom.childNodes (Some "ul") root
  = Return []
∧ Children.matcher Dom.convertOne Dom.querySelector Dom.childNodes (Some "") root
  = Return [Str "intro";
            Node (Element "p" [] [Str "Hi "; Str "there"])]
∧ Children.matcher Dom.convertOne Dom.querySelector Dom.childNodes None root
  = Return [Str "intro";
            Node (Element "p" [] [Str "Hi "; Str "there"])].
Proof.
intros root. split_and!.
- destruct (matcher_spec Dom.convertOne Dom.querySelector Dom.childNodes
              (Some "p") root) as [_ Hsel].
  destruct (Hsel "p" eq_refl ltac:(discriminate)) as [Hfound _].
  apply (Hfound (Dom.ElementNode "p" []
           [Dom.TextNode "Hi "; Dom.CommentNode "x"; Dom.TextNode "there"])).
  reflexivity.
- destruct (matcher_spec Dom.convertOne Dom.querySelector Dom.childNodes
              (Some "ul") root) as [_ Hsel].
  destruct (Hsel "ul" eq_refl ltac:(discriminate)) as [_ Hnone].
  apply Hnone. reflexivity.
- destruct (matcher_spec Dom.convertOne Dom.querySelector Dom.childNodes
              (Some "") root) as [Hroot _].
  apply (Hroot (or_intror eq_refl)).
- destruct (matcher_spec Dom.convertOne Dom.querySelector Dom.childNodes
              None root) as [Hroot _].
  apply (Hroot (or_introl eq_refl)).
Defined.

(** ** [toText] *)

Lemma extractTextRuns_text (run : list string) :
Design.extractTextRuns (Str <$> run) = run.
Proof.
induction run as [|s run IH]; [done|].
change (s :: Design.extractTextRuns (Str <$> run) = s :: run). by rewrite IH.
Qed.

(** C7 (property P5): provided the text-extraction collaborator yields the
  depth-first sequence of the text values, [toText] of a sequence made of
  the text items [s1, ..., sn] only is [s1 + ... + sn]: the fragments are
  joined with nothing between them and nothing is trimmed. *)
Theorem toText_text_runs
  (getTextElements : WPBlockChildren → list string)
  (run : list string) :
(∀ children, getTextElements children = Design.extractTextRuns children) →
Children.toText getTextElements (Str <$> run) = foldr String.app "" run
∧ ∀ children,
    Children.toText getTextElements children
    = foldr String.app "" (Design.extractTextRuns children).
Proof.
intros Hcollab. unfold Children.toText, Children.getSerializeCapableElement.
split.
- by rewrite join_empty_separator, Hcollab, extractTextRuns_text.
- intros children. by rewrite join_empty_separator, Hcollab.
Qed.

Lemma toText_text_runs_witness :
Children.toText Design.extractTextRuns [Str " Hi "; Str ""; Str "there  "]
= " Hi there  ".
Proof.
apply (toText_text_runs Design.extractTextRuns [" Hi "; ""; "there  "]).
reflexivity.
Defined.

(** Scenario E of the design document. *)
Example toText_scenario_E :
Children.toText Design.extractTextRuns
  [Str "Hi "; Node (Element "em" [] [Str "there"])]
= "Hi there".
Proof. reflexivity. Qed.

(** ** More on [concat]: sizes, fixed points, splitting the arguments *)

Section ConcatMore.
Context {N : Type}.
Implicit Types (result items more : list (child N)) (c : child N).
Implicit Types (blockNodes : list (blockNode N)).

Import Children Design.

Lemma coalesce_length items :
  min 1 (length items) ≤ length (coalesce items) ≤ length items.
Proof.
induction items as [|[s|n] items IH]; [done| |simpl; lia].
rewrite coalesce_cons_text.
destruct (coalesce items) as [|[t|m] r]; simpl in *; lia.
Qed.

(** Coalescing does not change whether a sequence begins with text. *)
Lemma coalesce_head_is_text items :
  from_option is_text false (head (coalesce items))
  = from_option is_text false (head items).
Proof.
destruct items as [|[s|n] items]; [done| |done].
rewrite coalesce_cons_text. by destruct (coalesce items) as [|[t|m] r].
Qed.

Lemma coalesce_length_exact items :
  length (coalesce items) + adjacent_text_pairs items = length items.
Proof.
induction items as [|[s|n] items IH]; [done| |simpl; lia].
rewrite coalesce_cons_text. cbn [adjacent_text_pairs is_text andb length].
rewrite <-(coalesce_head_is_text items).
destruct (coalesce items) as [|[t|m] r]; simpl in *; lia.
Qed.

(** The size of what [concat] returns: the length of the flattened input
    less the number of strings that directly follow a string there.  So the
    output is no longer than the flattened input, and is empty only when the
    flattened input is. *)
Theorem concat_length blockNodes :
  length (concat blockNodes) + adjacent_text_pairs (flatten blockNodes)
  = length (flatten blockNodes)
  ∧ min 1 (length (flatten blockNodes)) ≤ length (concat blockNodes)
  ∧ length (concat blockNodes) ≤ length (flatten blockNodes).
Proof.
rewrite concat_coalesce. split; [apply coalesce_length_exact|].
apply coalesce_length.
Qed.

(** [concat] hands its flattened input back unchanged exactly when that
    input already has no two neighbouring strings. *)
Theorem concat_normalized_iff blockNodes :
  no_adjacent_text (flatten blockNodes) = true
  ↔ concat blockNodes = flatten blockNodes.
Proof.
rewrite concat_coalesce. split.
- apply coalesce_fixed.
- intros <-. apply coalesce_no_adjacent_text.
Qed.

(** The argument list can be cut anywhere and either part replaced by its
    own [concat]. *)
Theorem concat_app_args blockNodes1 blockNodes2 :
  concat (blockNodes1 ++ blockNodes2)
  = concat [Many (concat blockNodes1); Many (concat blockNodes2)]
  ∧ concat (blockNodes1 ++ blockNodes2)
    = concat (Many (concat blockNodes1) :: blockNodes2)
  ∧ concat (blockNodes1 ++ blockNodes2)
    = concat (blockNodes1 ++ [Many (concat blockNodes2)]).
Proof.
rewrite !concat_coalesce, !flatten_app, !flatten_cons. simpl.
rewrite !app_nil_r. split_and!.
- by rewrite coalesce_app_l, coalesce_app_r.
- by rewrite coalesce_app_l.
- by rewrite coalesce_app_r.
Qed.

(** Arguments that hold nothing but strings, and at least one, give a
    single string: all of them appended in order. *)
Theorem concat_all_text blockNodes s (run : list string) :
  flatten blockNodes = Str <$> s :: run →
  concat blockNodes = [Str (foldr String.app "" (s :: run))].
Proof. intros H. rewrite concat_coalesce, H. apply coalesce_text_run. Qed.

Lemma concat_child_length result c :
  length result ≤ length (concat_child result c).
Proof.
destruct (concat_child_cases result c)
  as [[-> ->]|[(r & n & -> & ->)|[(r & p & n & -> & -> & ->)|(r & p & s & -> & -> & ->)]]];
  rewrite ?length_app; simpl; lia.
Qed.

Lemma concat_child_lookup result c i :
  S i < length result → concat_child result c !! i = result !! i.
Proof.
destruct (concat_child_cases result c)
  as [[-> ->]|[(r & n & -> & ->)|[(r & p & n & -> & -> & ->)|(r & p & s & -> & -> & ->)]]];
  rewrite ?length_app; simpl; intros Hi; [lia|..];
  by rewrite !lookup_app_l by lia.
Qed.

Lemma foldl_concat_child_stable more : ∀ result,
  length result ≤ length (foldl concat_child result more)
  ∧ ∀ i, S i < length result →
         foldl concat_child result more !! i = result !! i.
Proof.
induction more as [|c more IH]; intros result; [done|].
cbn [foldl]. destruct (IH (concat_child result c)) as [Hlen Hlook].
pose proof (concat_child_length result c). split; [lia|].
intros i Hi. rewrite Hlook by lia. by apply concat_child_lookup.
Qed.

(** Further arguments only ever touch the last item of what has been built:
    every earlier item of [concat( ...args )] is still in its place in
    [concat( ...args, ...more )], and the output does not get shorter. *)
Theorem concat_prefix_stable blockNodes1 blockNodes2 :
  length (concat blockNodes1) ≤ length (concat (blockNodes1 ++ blockNodes2))
  ∧ ∀ i, S i < length (concat blockNodes1) →
         concat (blockNodes1 ++ blockNodes2) !! i = concat blockNodes1 !! i.
Proof.
rewrite (concat_coalesce (_ ++ _)), flatten_app, <-foldl_concat_child_coalesce.
rewrite <-concat_coalesce. apply foldl_concat_child_stable.
Qed.
End ConcatMore.

Lemma concat_normalized_iff_witness :
  Children.concat [Many [Str "a"; Node 7]; Single (Str "b"); Many [Node 8]]
  = [Str "a"; Node 7; Str "b"; Node 8].
Proof.
apply (concat_normalized_iff
         [Many [Str "a"; Node 7]; Single (Str "b"); Many [Node 8]]).
reflexivity.
Defined.

Lemma concat_all_text_witness :
  Children.concat [Many [Str "a"; Str ""]; Many []; Single (Str "b") : blockNode nat]
  = [Str "ab"].
Proof.
apply (concat_all_text
         [Many [Str "a"; Str ""]; Many []; Single (Str "b")] "a" [""; "b"]).
reflexivity.
Defined.

Lemma concat_prefix_stable_witness :
  Children.concat ([Many [Str "a"; Node 7; Str "b"]] ++ [Single (Str "c"); Single (Node 8)])
    !! 1
  = Some (Node 7).
Proof.
destruct (concat_prefix_stable
            [Many [Str "a"; Node 7; Str "b"]] [Single (Str "c"); Single (Node 8)])
  as [_ Hstable].
apply (Hstable 1). simpl. lia.
Defined.

(** ** [toText] after [concat] *)

Lemma foldr_string_app (xs ys : list string) :
  foldr String.app "" (xs ++ ys)
  = foldr String.app "" xs +:+ foldr String.app "" ys.
Proof.
induction xs as [|x xs IH]; [done|].
cbn [app foldr]. by rewrite IH, string_app_assoc.
Qed.

Lemma extractTextRuns_cons (c : WPBlockChild) (items : WPBlockChildren) :
  Design.extractTextRuns (c :: items)
  = match c with
    | Str s => [s]
    | Node n => Design.element_text_runs n
    end ++ Design.extractTextRuns items.
Proof. done. Qed.

Lemma extractTextRuns_app (items more : WPBlockChildren) :
  Design.extractTextRuns (items ++ more)
  = Design.extractTextRuns items ++ Design.extractTextRuns more.
Proof. apply flat_map_app. Qed.

Lemma extractTextRuns_coalesce (items : WPBlockChildren) :
  foldr String.app "" (Design.extractTextRuns (Design.coalesce items))
  = foldr String.app "" (Design.extractTextRuns items).
Proof.
induction items as [|[s|n] items IH]; [done| |].
- rewrite coalesce_cons_text, (extractTextRuns_cons (Str s) items).
  cbn [app foldr]. rewrite <-IH.
  destruct (Design.coalesce items) as [|[t|m] r]; [done| |done].
  rewrite !extractTextRuns_cons. cbn [app foldr].
  by rewrite string_app_assoc.
- change (Design.coalesce (Node n :: items)) with (Node n :: Design.coalesce items).
  by rewrite !extractTextRuns_cons, !foldr_string_app, IH.
Qed.

(** With a text extractor that yields the text values depth-first, [concat]
    does not change the text of what it is given, and the text of two
    sequences concatenated is the text of the first followed by the text of
    the second. *)
Theorem toText_concat
  (getTextElements : WPBlockChildren → list string)
  (blockNodes : list (blockNode WPElement)) (a b : WPBlockChildren) :
(∀ children, getTextElements children = Design.extractTextRuns children) →
Children.toText getTextElements (Children.concat blockNodes)
= Children.toText getTextElements (Design.flatten blockNodes)
∧ Children.toText getTextElements (Children.concat [Many a; Many b])
  = Children.toText getTextElements a +:+ Children.toText getTextElements b.
Proof.
intros Hcollab. unfold Children.toText, Children.getSerializeCapableElement.
rewrite !join_empty_separator, !Hcollab, !concat_coalesce, !extractTextRuns_coalesce.
split; [done|].
rewrite !flatten_cons. simpl. rewrite app_nil_r.
by rewrite extractTextRuns_app, foldr_string_app.
Qed.

Lemma toText_concat_witness :
  Children.toText Design.extractTextRuns
    (Children.concat [Many [Str "Hi "; Node (Element "em" [] [Str "the"])];
                      Many [Node (Element "em" [] [Str "re"]); Str "!"]])
  = "Hi the" +:+ "re!".
Proof.
apply (toText_concat Design.extractTextRuns []
         [Str "Hi "; Node (Element "em" [] [Str "the"])]
         [Node (Element "em" [] [Str "re"]); Str "!"]).
reflexivity.
Defined.

(** ** More on [fromDOM] and [matcher] *)

Section FromDOMMore.
Context {ExternalNode : Type}.
Variable node_fromDOM : ExternalNode → completion WPBlockChild.
Implicit Types (domNodes : list ExternalNode) (result : WPBlockChildren).

Import Children Design.

(** Converting a collection in two parts and appending the results is the
    same as converting it whole, for array-like collections and for
    iterables without a [length] alike. *)
Theorem fromDOM_app domNodes1 domNodes2 :
  fromDOM node_fromDOM (ArrayLike (domNodes1 ++ domNodes2))
  = bind (fromDOM node_fromDOM (ArrayLike domNodes1)) (λ result1,
      bind (fromDOM node_fromDOM (ArrayLike domNodes2)) (λ result2,
        Return (result1 ++ result2)))
  ∧ fromDOM node_fromDOM (Unindexed (domNodes1 ++ domNodes2))
    = bind (fromDOM node_fromDOM (Unindexed domNodes1)) (λ result1,
        bind (fromDOM node_fromDOM (Unindexed domNodes2)) (λ result2,
          Return (result1 ++ result2))).
Proof. rewrite !fromDOM_omap. simpl. by rewrite omap_app. Qed.

(** The items [fromDOM] returns for an array-like collection are exactly
    the conversions of its nodes: nothing is made up and no successful
    conversion is lost. *)
Theorem fromDOM_elem_of domNodes :
  ∃ result,
    fromDOM node_fromDOM (ArrayLike domNodes) = Return result
    ∧ ∀ c, c ∈ result ↔ ∃ n, n ∈ domNodes ∧ node_fromDOM n = Return c.
Proof.
exists (omap (converted node_fromDOM) domNodes). split; [apply fromDOM_omap|].
intros c. rewrite list_elem_of_omap. unfold converted.
split; intros (n & Hn & Hc); exists n; (split; [done|]).
- destruct (node_fromDOM n); congruence.
- by rewrite Hc.
Qed.

(** For an array-like collection [fromDOM] returns at most one item per
    node, and as many items as nodes exactly when no conversion raises. *)
Theorem fromDOM_length domNodes :
  ∃ result,
    fromDOM node_fromDOM (ArrayLike domNodes) = Return result
    ∧ length result ≤ length domNodes
    ∧ (length result = length domNodes
       ↔ Forall (λ n, ∃ c, node_fromDOM n = Return c) domNodes).
Proof.
exists (omap (converted node_fromDOM) domNodes). split; [apply fromDOM_omap|].
induction domNodes as [|n domNodes [IHle IHeq]].
{ split; [done|]. split; [constructor|done]. }
cbn [omap list_omap].
assert (converted node_fromDOM n
        = match node_fromDOM n with Return c => Some c | Throw _ => None end)
  as -> by done.
destruct (node_fromDOM n) as [c|e] eqn:Hn; cbn [length].
- split; [lia|]. rewrite Forall_cons. split.
  + intros Hlen. split; [by exists c|]. apply IHeq. lia.
  + intros [_ Hall]. f_equal. by apply IHeq.
- split; [lia|]. rewrite Forall_cons. split.
  + intros Hlen. lia.
  + intros [[c Hc] _]. congruence.
Qed.

(** When every node of an array-like collection converts, [fromDOM] is the
    node-by-node conversion. *)
Theorem fromDOM_all_converted (f : ExternalNode → WPBlockChild) domNodes :
  (∀ n, n ∈ domNodes → node_fromDOM n = Return (f n)) →
  fromDOM node_fromDOM (ArrayLike domNodes) = Return (f <$> domNodes).
Proof.
intros Hall. rewrite fromDOM_omap. f_equal.
induction domNodes as [|n domNodes IH]; [done|].
cbn [omap list_omap fmap list_fmap]. unfold converted at 1.
rewrite (Hall n) by left. f_equal. apply IH.
intros n' Hn'. apply Hall. by right.
Qed.

Variable querySelector : ExternalNode → string → completion (option ExternalNode).
Variable childNodes : ExternalNode → list ExternalNode.

(** The only exception that leaves [matcher] is one raised by
    [querySelector], which is called only for a non-empty selector; a failed
    node conversion never surfaces. *)
Theorem matcher_Throw_iff (selector : option string) (root : ExternalNode) e :
  matcher node_fromDOM querySelector childNodes selector root = Throw e
  ↔ ∃ s, selector = Some s ∧ s ≠ "" ∧ querySelector root s = Throw e.
Proof.
unfold matcher, truthy. split.
- destruct selector as [s|]; [|cbn [bind]; by rewrite fromDOM_omap].
  destruct (decide (s = "")) as [->|Hs]; [cbn [bind]; by rewrite fromDOM_omap|].
  destruct (querySelector root s) as [[m|]|e'] eqn:Hq; cbn [bind].
  + by rewrite fromDOM_omap.
  + done.
  + intros [= ->]. by exists s.
- intros (s & -> & Hs & Hq). rewrite decide_False by done. by rewrite Hq.
Qed.
End FromDOMMore.

Lemma fromDOM_all_converted_witness :
  Children.fromDOM Dom.convertOne
    (ArrayLike [Dom.TextNode "x"; Dom.TextNode ""; Dom.TextNode "y"])
  = Return [Str "x"; Str ""; Str "y"].
Proof.
apply (fromDOM_all_converted Dom.convertOne
         (λ n, match n with Dom.TextNode s => Str s | _ => Str "" end)
         [Dom.TextNode "x"; Dom.TextNode ""; Dom.TextNode "y"]).
intros n Hn.
apply elem_of_cons in Hn as [->|Hn]; [reflexivity|].
apply elem_of_cons in Hn as [->|Hn]; [reflexivity|].
apply elem_of_cons in Hn as [->|Hn]; [reflexivity|].
by apply elem_of_nil in Hn.
Defined.

Lemma matcher_Throw_iff_witness :
  Children.matcher Dom.convertOne (λ _ _, Throw "SyntaxError") Dom.childNodes
    (Some "p[") (Dom.ElementNode "div" [] [Dom.CommentNode "x"])
  = Throw "SyntaxError".
Proof.
apply (matcher_Throw_iff Dom.convertOne (λ _ _, Throw "SyntaxError") Dom.childNodes
         (Some "p[") (Dom.ElementNode "div" [] [Dom.CommentNode "x"]) "SyntaxError").
exists "p[". split_and!; [reflexivity|discriminate|reflexivity].
Defined.

(** ** Calls of [concat] over the store, one after the other *)

Section StoreConcatMore.
Import Store.
Implicit Types (st : store) (v a b c : value).

Lemma read_blockNode_weaken st st' v :
  st ⊆ st' →
  (∀ l, v = Node l → is_Some (st !! l)) →
  read_blockNode st' v = read_blockNode st v.
Proof.
intros Hsub Hv. destruct v as [s|l]; [done|].
destruct (Hv l eq_refl) as [o Hl]. simpl.
by rewrite Hl, (lookup_weaken _ _ _ _ Hl Hsub).
Qed.

(** The array one call returns can be passed to the next:
    [concat( concat( a, b ), c )] run over the store returns a second new
    array holding what [concat( a, b, c )] computes, and neither the objects
    that were there before nor the array of the first call are written to. *)
Theorem store_concat_nested st a b c fuel :
  allocated st [a; b; c] →
  length (Children.castArray (read_blockNode st a))
    + length (Children.castArray (read_blockNode st b)) < fuel →
  length (Children.castArray (read_blockNode st c)) < fuel →
  ∃ st1 result1 st2 result2,
    Store.concat fuel st [a; b] = Some (st1, result1)
    ∧ Store.concat fuel st1 [Node result1; c] = Some (st2, result2)
    ∧ result1 ≠ result2
    ∧ st !! result1 = None ∧ st !! result2 = None
    ∧ (∀ l o, st !! l = Some o → st2 !! l = Some o)
    ∧ st2 !! result1 = st1 !! result1
    ∧ st2 !! result2
      = Some (Array (Children.concat (read_blockNode st <$> [a; b; c]))).
Proof.
intros Hall Hab Hc.
apply allocated_cons in Hall as [Hlivea Hall].
apply allocated_cons in Hall as [Hliveb Hall].
apply allocated_cons in Hall as [Hlivec _].
destruct (concat_spec fuel st [a; b])
  as (st1 & result1 & Hrun1 & Hnew1 & Hsub1 & Hres1).
{ intros l Hl. apply elem_of_cons in Hl as [<-|Hl]; [by apply Hlivea|].
  apply list_elem_of_singleton in Hl as <-. by apply Hliveb. }
{ unfold turns. simpl. lia. }
assert (read_blockNode st1 (Node result1)
        = Many (Children.concat (read_blockNode st <$> [a; b]))) as Hread1.
{ simpl. by rewrite Hres1. }
assert (read_blockNode st1 c = read_blockNode st c) as Hreadc.
{ by apply read_blockNode_weaken. }
destruct (concat_spec fuel st1 [Node result1; c])
  as (st2 & result2 & Hrun2 & Hnew2 & Hsub2 & Hres2).
{ intros l Hl. apply elem_of_cons in Hl as [[= ->]|Hl]; [by eexists|].
  apply list_elem_of_singleton in Hl as <-.
  destruct (Hlivec l eq_refl) as [o Hl].
  exists o. by eapply lookup_weaken. }
{ unfold turns. cbn [max_list_with]. rewrite Hread1, Hreadc.
  pose proof (concat_coalesce (read_blockNode st <$> [a; b])) as Hco.
  pose proof (coalesce_length
                (Design.flatten (read_blockNode st <$> [a; b]))) as [_ Hle].
  rewrite <-Hco in Hle. cbn [fmap list_fmap] in Hle.
  rewrite !flatten_cons, !length_app in Hle. cbn [Design.flatten] in Hle.
  simpl in Hle |- *. lia. }
exists st1, result1, st2, result2. split_and!; try done.
- intros ->. congruence.
- destruct (st !! result2) as [o|] eqn:Hl; [|done].
  rewrite (lookup_weaken _ _ _ _ Hl Hsub1) in Hnew2. done.
- intros l o Hl. eapply lookup_weaken; [|exact Hsub2].
  by eapply lookup_weaken.
- rewrite Hres1. by eapply lookup_weaken.
- rewrite Hres2. do 2 f_equal. cbn [fmap list_fmap]. rewrite Hread1, Hreadc.
  rewrite !concat_coalesce, !flatten_cons. simpl. rewrite !app_nil_r.
  by rewrite coalesce_app_l, <-app_assoc.
Qed.
End StoreConcatMore.

Lemma store_concat_nested_witness :
  ∃ st1 result1 st2 result2,
    Store.concat 5 Store.example_store [Node 1%positive; Str "b"]
    = Some (st1, result1)
    ∧ Store.concat 5 st1 [Node result1; Str "c"] = Some (st2, result2)
    ∧ st2 !! 1%positive = Some (Store.Array [Str "a"; Node 2%positive])
    ∧ st2 !! result1 = Some (Store.Array [Str "a"; Node 2%positive; Str "b"])
    ∧ st2 !! result2 = Some (Store.Array [Str "a"; Node 2%positive; Str "bc"]).
Proof.
destruct (store_concat_nested Store.example_store
            (Node 1%positive) (Str "b") (Str "c") 5)
  as (st1 & result1 & st2 & result2
      & Hrun1 & Hrun2 & _ & _ & _ & Hframe & Hkeep & Hres).
- intros l Hl. exists (Store.Array [Str "a"; Node 2%positive]).
  apply elem_of_cons in Hl as [[= ->]|Hl]; [reflexivity|].
  apply elem_of_cons in Hl as [[=]|Hl].
  apply elem_of_cons in Hl as [[=]|Hl].
  by apply elem_of_nil in Hl.
- vm_compute. lia.
- vm_compute. lia.
- exists st1, result1, st2, result2. split_and!; [done|done| | |done].
  + apply Hframe. reflexivity.
  + rewrite Hkeep. vm_compute in Hrun1. by injection Hrun1 as <- <-.
Defined.
